(** * OneTimeValue<T>: a single-slot container whose value is read at most once

    Shallow embedding of [src/one_time_value.hpp].

    - [std::optional<T>] is modelled by [option T], with the operations the
      class uses written out one by one (contextual conversion to [bool],
      [reset], assignment, move construction, [operator*]).
    - C++ moves are modelled explicitly: moving out of a [T] object yields the
      old value in the destination and leaves the source holding
      [moved_from v], a valid but unspecified value chosen by [T].
    - Member functions are computations in a state-and-fault monad over the
      object's only data member [value_]. The one fault of the model is
      [operator*] applied to a disengaged optional (undefined behaviour in
      C++).
    - Parameters passed by reference are returned next to the result, so
      that what the call did to the caller's object is visible.
    - Named objects live in a store (a finite map), which is what the
      implicitly generated copy operations act on. *)

From stdpp Require Import base option list gmap strings.

(** ** Faults and results *)

Inductive fault : Set :=
  | deref_disengaged   (* [*o] on an optional that holds nothing *)
  | no_such_object.    (* a name that denotes no live object *)

Inductive result (A : Type) : Type :=
  | Ok (a : A)
  | Fault (e : fault).
Arguments Ok {A} a.
Arguments Fault {A} e.

Definition is_ok {A} (r : result A) : bool :=
  match r with Ok _ => true | Fault _ => false end.

Section one_time_value.
Context {T : Type}.

(** What a [T] object holds after it has been moved from. *)
Variable moved_from : T → T.

(** ** The value type [T] *)

(** Copy construction from [const T &]: the new object. The source is
    [const] and keeps its value. *)
Definition T_copy (src : T) : T := src.

(** Move construction from [T &&]: the new object and what is left in the
    source. *)
Definition T_move (src : T) : T * T := (src, moved_from src).

(** ** [std::optional<T>] *)

Definition optional : Type := option T.

Definition nullopt : optional := None.

(** [explicit operator bool] and [has_value()]. *)
Definition opt_has_value (o : optional) : bool :=
  match o with Some _ => true | None => false end.

(** [o.reset()]. *)
Definition opt_reset (o : optional) : optional := nullopt.

(** [o = value] with [value : const T &]. An engaged optional assigns to
    its payload, a disengaged one constructs it: either way it ends up
    holding a copy of [value]. *)
Definition opt_assign (o : optional) (value : T) : optional :=
  Some (T_copy value).

(** [o = std::move(value)]: the optional afterwards and what is left in
    [value]. *)
Definition opt_assign_move (o : optional) (value : T) : optional * T :=
  let '(new, residue) := T_move value in (Some new, residue).

(** [std::optional<T> tmp = std::move(o)]: [tmp], and [o] afterwards. A
    moved-from optional stays engaged; its payload is moved from. *)
Definition opt_move_construct (o : optional) : optional * optional :=
  match o with
  | Some v => let '(new, residue) := T_move v in (Some new, Some residue)
  | None => (nullopt, nullopt)
  end.

(** [std::optional<T> tmp = o] with [o] const. *)
Definition opt_copy_construct (o : optional) : optional :=
  match o with
  | Some v => Some (T_copy v)
  | None => nullopt
  end.

(** [*o]: undefined when [o] is disengaged. *)
Definition opt_deref (o : optional) : result T :=
  match o with
  | Some v => Ok v
  | None => Fault deref_disengaged
  end.

(** ** The class *)

Record OneTimeValue : Type := mkOneTimeValue {
  value_ : optional   (* the internally stored optional value *)
}.

(** The two shapes of a container. *)
Definition empty : OneTimeValue := mkOneTimeValue nullopt.
Definition holding (v : T) : OneTimeValue := mkOneTimeValue (Some v).

(** Member functions: computations over [*this] that may fault. *)
Definition M (A : Type) : Type := OneTimeValue → result (A * OneTimeValue).

#[export] Instance M_ret : MRet M := λ A a this, Ok (a, this).

#[export] Instance M_bind : MBind M := λ A B f m this,
  match m this with
  | Ok (a, this') => f a this'
  | Fault e => Fault e
  end.

Definition get_value_ : M optional := λ this, Ok (value_ this, this).

Definition put_value_ (o : optional) : M unit :=
  λ _, Ok ((), mkOneTimeValue o).

Definition lift_result {A} (r : result A) : M A := λ this,
  match r with
  | Ok a => Ok (a, this)
  | Fault e => Fault e
  end.

(** Outcome of a call that takes one parameter by reference: the returned
    value and the state of the caller's object after the call. *)
Record call (A : Type) : Type := Call { retval : A; referent : T }.
Arguments Call {A} retval referent.
Arguments retval {A} c.
Arguments referent {A} c.

(** *** Constructors *)

(** [OneTimeValue() = default]. *)
Definition ctor_default : OneTimeValue := mkOneTimeValue nullopt.

(** [OneTimeValue(const T &value) : value_(value)]. *)
Definition ctor_copy (value : T) : call OneTimeValue :=
  Call (mkOneTimeValue (Some (T_copy value))) value.

(** [OneTimeValue(T &&value) : value_(std::move(value))]. *)
Definition ctor_move (value : T) : call OneTimeValue :=
  let '(new, residue) := T_move value in
  Call (mkOneTimeValue (Some new)) residue.

(** *** Statements on the data member *)

(** [value_.reset();] *)
Definition value_reset : M unit :=
  o ← get_value_; put_value_ (opt_reset o).

(** [auto tmp = std::move(value_);] *)
Definition value_move : M optional :=
  o ← get_value_;
  let '(tmp, o') := opt_move_construct o in
  put_value_ o';; mret tmp.

(** [T tmp = std::move( *value_ );] *)
Definition value_deref_move : M T :=
  o ← get_value_;
  v ← lift_result (opt_deref o);
  let '(tmp, residue) := T_move v in
  put_value_ (Some residue);; mret tmp.

(** *** Member functions *)

(** [void set(const T &value) { value_ = value; }] *)
Definition set (value : T) : M (call unit) :=
  o ← get_value_;
  put_value_ (opt_assign o value);;
  mret (Call () value).

(** [void set(T &&value) { value_ = std::move(value); }] *)
Definition set_move (value : T) : M (call unit) :=
  o ← get_value_;
  let '(o', residue) := opt_assign_move o value in
  put_value_ o';;
  mret (Call () residue).

(** [bool has_value() const noexcept { return value_.has_value(); }] *)
Definition has_value : M bool :=
  o ← get_value_; mret (opt_has_value o).

(** [std::optional<T> consume()] *)
Definition consume : M optional :=
  o ← get_value_;
  if negb (opt_has_value o) then mret nullopt
  else
    tmp ← value_move;
    value_reset;;
    mret tmp.

(** [T take_or(const T &default_value)] *)
Definition take_or (default_value : T) : M (call T) :=
  o ← get_value_;
  if opt_has_value o then
    tmp ← value_deref_move;
    value_reset;;
    mret (Call tmp default_value)
  else mret (Call (T_copy default_value) default_value).

(** [void reset() noexcept { value_.reset(); }] *)
Definition reset : M unit := value_reset.

(** ** Client code *)

(** Two calls in a row on the same object, keeping both results. *)
Definition in_a_row {A B} (first : M A) (second : M B) : M (A * B) :=
  a ← first; b ← second; mret (a, b).

(** The same call [n] times in a row. *)
Fixpoint repeat_m {A} (n : nat) (m : M A) : M (list A) :=
  match n with
  | 0 => mret []
  | S n' => a ← m; rest ← repeat_m n' m; mret (a :: rest)
  end.

(** The public interface as data: one constructor per member function
    (per overload for [set]). *)
Inductive op : Type :=
  | op_set (value : T)
  | op_set_move (value : T)
  | op_has_value
  | op_consume
  | op_take_or (default_value : T)
  | op_reset.

(** What a call hands back, by return type. *)
Inductive output : Type :=
  | out_void
  | out_bool (b : bool)
  | out_optional (o : optional)
  | out_value (v : T).

Definition exec (c : op) : M output :=
  match c with
  | op_set value => set value;; mret out_void
  | op_set_move value => set_move value;; mret out_void
  | op_has_value => b ← has_value; mret (out_bool b)
  | op_consume => o ← consume; mret (out_optional o)
  | op_take_or d => r ← take_or d; mret (out_value (retval r))
  | op_reset => reset;; mret out_void
  end.

Fixpoint exec_all (cs : list op) : M (list output) :=
  match cs with
  | [] => mret []
  | c :: cs' => r ← exec c; rs ← exec_all cs'; mret (r :: rs)
  end.

(** The two ways of handing a value to [set]. *)
Inductive passing : Set := by_copy | by_move.

Definition set_by (how : passing) : T → M (call unit) :=
  match how with
  | by_copy => set
  | by_move => set_move
  end.

Definition ctor_by (how : passing) : T → call OneTimeValue :=
  match how with
  | by_copy => ctor_copy
  | by_move => ctor_move
  end.

(** ** Named objects *)

(** The class declares no copy or move operation of its own, so the
    implicitly generated ones apply: member by member. *)

(** [OneTimeValue(const OneTimeValue &other)]. *)
Definition implicit_copy_ctor (other : OneTimeValue) : OneTimeValue :=
  mkOneTimeValue (opt_copy_construct (value_ other)).

(** [OneTimeValue &operator=(const OneTimeValue &other)]. *)
Definition implicit_copy_assign (other : OneTimeValue) : M unit :=
  put_value_ (opt_copy_construct (value_ other)).

(** Programs over a store of named containers. *)
Definition P (A : Type) : Type :=
  gmap positive OneTimeValue → result (A * gmap positive OneTimeValue).

#[export] Instance P_ret : MRet P := λ A a σ, Ok (a, σ).

#[export] Instance P_bind : MBind P := λ A B f p σ,
  match p σ with
  | Ok (a, σ') => f a σ'
  | Fault e => Fault e
  end.

(** [x.m(...)]: run member function [m] on the object named [x]. *)
Definition on {A} (x : positive) (m : M A) : P A := λ σ,
  match σ !! x with
  | Some this =>
      match m this with
      | Ok (a, this') => Ok (a, <[x := this']> σ)
      | Fault e => Fault e
      end
  | None => Fault no_such_object
  end.

(** [OneTimeValue<T> y = x;] *)
Definition declare_copy (y x : positive) : P unit := λ σ,
  match σ !! x with
  | Some other => Ok ((), <[y := implicit_copy_ctor other]> σ)
  | None => Fault no_such_object
  end.

(** [y = x;] *)
Definition assign_copy (y x : positive) : P unit := λ σ,
  match σ !! x with
  | Some other => on y (implicit_copy_assign other) σ
  | None => Fault no_such_object
  end.

(** [a = x.consume(); b = y.has_value(); c = y.consume();] *)
Definition read_both (x y : positive) : P (optional * bool * optional) :=
  a ← on x consume; b ← on y has_value; c ← on y consume; mret (a, b, c).

(** ** Move of a container *)

(** The implicitly generated move constructor,
    [OneTimeValue(OneTimeValue &&other)], moves member by member: the new
    object, and [other] afterwards. *)
Definition implicit_move_ctor (other : OneTimeValue)
    : OneTimeValue * OneTimeValue :=
  let '(new, residue) := opt_move_construct (value_ other) in
  (mkOneTimeValue new, mkOneTimeValue residue).

(** [OneTimeValue<T> y = std::move(x);] with [y] a new name. *)
Definition declare_move (y x : positive) : P unit := λ σ,
  match σ !! x with
  | Some other =>
      let '(new, other') := implicit_move_ctor other in
      Ok ((), <[y := new]> (<[x := other']> σ))
  | None => Fault no_such_object
  end.

(** [a = x.has_value(); b = x.consume(); c = y.consume();] *)
Definition probe_then_read (x y : positive) : P (bool * optional * optional) :=
  a ← on x has_value; b ← on x consume; c ← on y consume; mret (a, b, c).

(** ** Accounting over a run *)

(** The value a call puts into the slot, if it is a [set]. *)
Definition stored_by (c : op) : option T :=
  match c with
  | op_set value | op_set_move value => Some value
  | _ => None
  end.

Definition set_values (cs : list op) : list T := omap stored_by cs.

(** 1 for an engaged optional handed back by [consume], 0 otherwise. *)
Definition handed_out (r : output) : nat :=
  match r with
  | out_optional (Some _) => 1
  | _ => 0
  end.

(** 1 when the slot holds a value, 0 when it does not. *)
Definition held (this : OneTimeValue) : nat :=
  if opt_has_value (value_ this) then 1 else 0.

(** ** Equations of the member functions *)

Lemma state_cases (this : OneTimeValue) :
  this = empty ∨ ∃ v, this = holding v.
Proof. destruct this as [[v|]]; [right; by exists v | by left]. Qed.

Lemma set_eq (value : T) (this : OneTimeValue) :
  set value this = Ok (Call () value, holding value).
Proof. reflexivity. Qed.

Lemma set_move_eq (value : T) (this : OneTimeValue) :
  set_move value this = Ok (Call () (moved_from value), holding value).
Proof. reflexivity. Qed.

Lemma has_value_eq (this : OneTimeValue) :
  has_value this = Ok (opt_has_value (value_ this), this).
Proof. reflexivity. Qed.

Lemma consume_eq (this : OneTimeValue) :
  consume this = Ok (value_ this, empty).
Proof. by destruct this as [[v|]]. Qed.

Lemma take_or_eq (d : T) (this : OneTimeValue) :
  take_or d this = Ok (Call (default d (value_ this)) d, empty).
Proof. by destruct this as [[v|]]. Qed.

Lemma reset_eq (this : OneTimeValue) : reset this = Ok ((), empty).
Proof. reflexivity. Qed.

(** The guard in [take_or] is what keeps the dereference defined. *)
Lemma value_deref_move_empty : value_deref_move empty = Fault deref_disengaged.
Proof. reflexivity. Qed.

Lemma value_move_holding (v : T) :
  value_move (holding v) = Ok (Some v, holding (moved_from v)).
Proof. reflexivity. Qed.

(** Sequencing after a call whose outcome is known. *)
Lemma bind_Ok {A B} (m : M A) (f : A → M B) this a this' :
  m this = Ok (a, this') → (m ≫= f) this = f a this'.
Proof. intros Hm. unfold mbind, M_bind. by rewrite Hm. Qed.

Lemma in_a_row_Ok {A B} (first : M A) (second : M B) this a mid b final :
  first this = Ok (a, mid) →
  second mid = Ok (b, final) →
  in_a_row first second this = Ok ((a, b), final).
Proof.
  intros H1 H2. unfold in_a_row.
  rewrite (bind_Ok _ _ _ _ _ H1), (bind_Ok _ _ _ _ _ H2). reflexivity.
Qed.

Lemma repeat_m_fixed {A} (m : M A) (a : A) (this : OneTimeValue) (n : nat) :
  m this = Ok (a, this) →
  repeat_m n m this = Ok (replicate n a, this).
Proof.
  intros Hm. induction n as [|n IH]; [reflexivity|].
  cbn [repeat_m replicate].
  rewrite (bind_Ok _ _ _ _ _ Hm), (bind_Ok _ _ _ _ _ IH). reflexivity.
Qed.

Lemma exec_Ok (c : op) (this : OneTimeValue) :
  ∃ r this', exec c this = Ok (r, this').
Proof.
  destruct c; cbn [exec].
  - eexists _, _. rewrite (bind_Ok _ _ _ _ _ (set_eq _ _)). reflexivity.
  - eexists _, _. rewrite (bind_Ok _ _ _ _ _ (set_move_eq _ _)). reflexivity.
  - eexists _, _. rewrite (bind_Ok _ _ _ _ _ (has_value_eq _)). reflexivity.
  - eexists _, _. rewrite (bind_Ok _ _ _ _ _ (consume_eq _)). reflexivity.
  - eexists _, _. rewrite (bind_Ok _ _ _ _ _ (take_or_eq _ _)). reflexivity.
  - eexists _, _. rewrite (bind_Ok _ _ _ _ _ (reset_eq _)). reflexivity.
Qed.

Lemma exec_all_Ok (cs : list op) (this : OneTimeValue) :
  ∃ rs this', exec_all cs this = Ok (rs, this') ∧ length rs = length cs.
Proof.
  revert this. induction cs as [|c cs IH]; intros this.
  - by exists [], this.
  - destruct (exec_Ok c this) as (r & mid & Hc).
    destruct (IH mid) as (rs & final & Hcs & Hlen).
    exists (r :: rs), final. split; [|cbn; by rewrite Hlen].
    cbn [exec_all].
    rewrite (bind_Ok _ _ _ _ _ Hc), (bind_Ok _ _ _ _ _ Hcs). reflexivity.
Qed.

Lemma set_by_eq (how : passing) (value : T) (this : OneTimeValue) :
  ∃ residue, set_by how value this = Ok (Call () residue, holding value).
Proof. destruct how; eexists; reflexivity. Qed.

Lemma ctor_by_holding (how : passing) (value : T) :
  retval (ctor_by how value) = holding value.
Proof. by destruct how. Qed.

(** ** The one-time contract *)

(** C1. Two reads in a row ([consume] or [take_or], in any of the four
    combinations) with no [set] in between: the first returns what the
    slot held, if anything ([take_or] falls back to its argument), and
    leaves the slot empty; the second finds the slot empty whatever the
    first returned: [consume] gives [nullopt], [take_or d'] gives [d']. *)
Theorem one_time_contract (this : OneTimeValue) (d d' : T) :
  consume this = Ok (value_ this, empty) ∧
  take_or d this = Ok (Call (default d (value_ this)) d, empty) ∧
  in_a_row consume consume this
    = Ok ((value_ this, nullopt), empty) ∧
  in_a_row consume (take_or d') this
    = Ok ((value_ this, Call d' d'), empty) ∧
  in_a_row (take_or d) consume this
    = Ok ((Call (default d (value_ this)) d, nullopt), empty) ∧
  in_a_row (take_or d) (take_or d') this
    = Ok ((Call (default d (value_ this)) d, Call d' d'), empty).
Proof.
  pose proof (consume_eq this) as Hc.
  pose proof (take_or_eq d this) as Ht.
  repeat split; try assumption.
  - exact (in_a_row_Ok _ _ _ _ _ _ _ Hc (consume_eq empty)).
  - exact (in_a_row_Ok _ _ _ _ _ _ _ Hc (take_or_eq d' empty)).
  - exact (in_a_row_Ok _ _ _ _ _ _ _ Ht (consume_eq empty)).
  - exact (in_a_row_Ok _ _ _ _ _ _ _ Ht (take_or_eq d' empty)).
Qed.

(** C2. [consume] on a container holding [v] returns the engaged optional
    [Some v] and leaves the slot empty; on an empty container it returns
    [nullopt] and the slot stays empty ([has_value] is false afterwards);
    any number of further calls on the empty container give the same
    answer and the same state. *)
Theorem consume_returns_and_clears (v : T) (n : nat) :
  consume (holding v) = Ok (Some v, empty) ∧
  consume empty = Ok (nullopt, empty) ∧
  in_a_row consume has_value empty = Ok ((nullopt, false), empty) ∧
  repeat_m n consume empty = Ok (replicate n nullopt, empty).
Proof.
  split; [reflexivity|]. split; [reflexivity|]. split; [reflexivity|].
  apply repeat_m_fixed. reflexivity.
Qed.

(** C3. [take_or d] on a container holding [v] returns [v] and leaves the
    container empty; on an empty container it returns [d] and the
    container is still empty: [has_value] is false afterwards in both
    cases. *)
Theorem take_or_stored_or_fallback (v d : T) :
  take_or d (holding v) = Ok (Call v d, empty) ∧
  take_or d empty = Ok (Call d d, empty) ∧
  in_a_row (take_or d) has_value (holding v)
    = Ok ((Call v d, false), empty) ∧
  in_a_row (take_or d) has_value empty
    = Ok ((Call d d, false), empty).
Proof. repeat split. Qed.

(** C4. [set], by copy or by move, succeeds in every state and leaves the
    container holding exactly the value given; [set a] then [set b] then
    [consume] returns [b], and so does not return [a] when [a] differs
    from [b]. *)
Theorem set_overwrites (first second : passing) (a b : T)
    (this : OneTimeValue) :
  (∃ residue,
     set_by second b this = Ok (Call () residue, holding b)) ∧
  (set_by first a;; set_by second b;; consume) this
    = Ok (Some b, empty) ∧
  (a ≠ b →
   ∀ final, (set_by first a;; set_by second b;; consume) this
              ≠ Ok (Some a, final)).
Proof.
  assert ((set_by first a;; set_by second b;; consume) this
          = Ok (Some b, empty)) as Hrun.
  { destruct (set_by_eq first a this) as [ra Ha].
    destruct (set_by_eq second b (holding a)) as [rb Hb].
    rewrite (bind_Ok _ _ _ _ _ Ha), (bind_Ok _ _ _ _ _ Hb).
    apply consume_eq. }
  split; [apply set_by_eq|]. split; [exact Hrun|].
  intros Hne final. rewrite Hrun. intros [= Hab _]. by apply Hne.
Qed.

(** ** No operation fails *)

(** C5. Every member function returns normally in every state, empty or
    holding: no call, and no sequence of calls, faults. On an empty
    container the absence of a value shows in what is returned
    ([nullopt] from [consume], the fallback from [take_or]). *)
Theorem operations_total (this : OneTimeValue) (v d : T) (c : op)
    (cs : list op) :
  (is_ok (set v this) = true ∧
   is_ok (set_move v this) = true ∧
   is_ok (has_value this) = true ∧
   is_ok (consume this) = true ∧
   is_ok (take_or d this) = true ∧
   is_ok (reset this) = true) ∧
  (∃ r this', exec c this = Ok (r, this')) ∧
  (∃ rs this', exec_all cs this = Ok (rs, this') ∧ length rs = length cs) ∧
  exec op_consume empty = Ok (out_optional nullopt, empty) ∧
  exec (op_take_or d) empty = Ok (out_value d, empty).
Proof.
  split.
  { rewrite set_eq, set_move_eq, has_value_eq, consume_eq, take_or_eq,
      reset_eq. repeat split. }
  split; [apply exec_Ok|]. split; [apply exec_all_Ok|]. by split.
Qed.

(** ** Construction, reset, query *)

(** C6. A default-constructed container is empty and [has_value] is
    false on it. A container constructed from [v], by copy or by move,
    holds [v]: [has_value] is true, [consume] returns [Some v], and
    [has_value] is false after that. *)
Theorem construction (how : passing) (v : T) :
  ctor_default = empty ∧
  has_value ctor_default = Ok (false, empty) ∧
  retval (ctor_by how v) = holding v ∧
  has_value (retval (ctor_by how v)) = Ok (true, holding v) ∧
  in_a_row consume has_value (retval (ctor_by how v))
    = Ok ((Some v, false), empty).
Proof.
  split; [reflexivity|]. split; [reflexivity|].
  rewrite ctor_by_holding. by repeat split.
Qed.

(** C7. [reset] leaves the slot empty whatever it held. On a container
    holding a value, [has_value] after [reset] is false and [consume]
    after [reset] returns [nullopt]. *)
Theorem reset_empties (this : OneTimeValue) (v : T) :
  reset this = Ok ((), empty) ∧
  in_a_row reset has_value (holding v) = Ok (((), false), empty) ∧
  in_a_row reset consume (holding v) = Ok (((), nullopt), empty).
Proof. by repeat split. Qed.

(** C8. [has_value] answers true exactly when the slot holds a value and
    leaves the container as it was: any number of calls give the same
    answer and the same state, and whatever runs after it runs as if it
    had not been called. *)
Theorem has_value_pure (this : OneTimeValue) (n : nat) :
  (∃ b, has_value this = Ok (b, this) ∧
        (b = true ↔ is_Some (value_ this))) ∧
  repeat_m n has_value this
    = Ok (replicate n (opt_has_value (value_ this)), this) ∧
  (∀ A (m : M A), (has_value;; m) this = m this).
Proof.
  split.
  { exists (opt_has_value (value_ this)). split; [apply has_value_eq|].
    destruct (value_ this) as [w|]; cbn.
    - split; [by eexists | done].
    - split; [done | by intros [? ?]]. }
  split; [apply repeat_m_fixed, has_value_eq|].
  intros A m. exact (bind_Ok has_value (λ _, m) _ _ _ (has_value_eq this)).
Qed.

(** C9. [take_or d] on a container holding [v] returns [v]; the caller's
    [d] is the same after the call, and neither the returned value nor
    the container afterwards depends on [d]. On an empty container the
    returned value is [d] itself, and [d] is again unchanged. *)
Theorem take_or_fallback_untouched (v d d' : T) :
  (∃ r final,
     take_or d (holding v) = Ok (r, final) ∧
     retval r = v ∧ referent r = d ∧
     ∃ r', take_or d' (holding v) = Ok (r', final) ∧
           retval r' = retval r) ∧
  (∃ r final,
     take_or d empty = Ok (r, final) ∧
     retval r = d ∧ referent r = d ∧ final = empty).
Proof.
  split.
  - exists (Call v d), empty. repeat split.
    exists (Call v d'). by split.
  - exists (Call d d), empty. by repeat split.
Qed.

(** ** Copies of a container *)

Lemma on_Ok {A} (x : positive) (m : M A) σ this a this' :
  σ !! x = Some this →
  m this = Ok (a, this') →
  on x m σ = Ok (a, <[x := this']> σ).
Proof. intros Hx Hm. unfold on. by rewrite Hx, Hm. Qed.

Lemma P_bind_Ok {A B} (p : P A) (f : A → P B) σ a σ' :
  p σ = Ok (a, σ') → (p ≫= f) σ = f a σ'.
Proof. intros Hp. unfold mbind, P_bind. by rewrite Hp. Qed.

Lemma declare_copy_Ok (y x : positive) σ (v : T) :
  σ !! x = Some (holding v) →
  declare_copy y x σ = Ok ((), <[y := holding v]> σ).
Proof. intros Hx. unfold declare_copy. by rewrite Hx. Qed.

Lemma assign_copy_Ok (y x : positive) σ (v : T) (old : OneTimeValue) :
  σ !! x = Some (holding v) →
  σ !! y = Some old →
  assign_copy y x σ = Ok ((), <[y := holding v]> σ).
Proof.
  intros Hx Hy. unfold assign_copy. rewrite Hx.
  by apply on_Ok with (this := old).
Qed.

(** One object read twice, for contrast with a copy: the second read
    finds nothing. *)
Lemma same_object_read_once (x : positive) σ (v : T) :
  σ !! x = Some (holding v) →
  (a ← on x consume; b ← on x consume; mret (a, b)) σ
    = Ok ((Some v, nullopt), <[x := empty]> σ).
Proof.
  intros Hx.
  rewrite (P_bind_Ok _ _ _ _ _ (on_Ok x consume σ _ _ _ Hx (consume_eq _))).
  erewrite P_bind_Ok;
    [|apply on_Ok with (this := empty);
      [by rewrite lookup_insert_eq | apply consume_eq]].
  by rewrite insert_insert_eq.
Qed.

Lemma read_both_copies (x y : positive) σ (v : T) :
  x ≠ y →
  σ !! x = Some (holding v) →
  σ !! y = Some (holding v) →
  read_both x y σ
    = Ok ((Some v, true, Some v), <[y := empty]> (<[x := empty]> σ)).
Proof.
  intros Hne Hx Hy. unfold read_both.
  rewrite (P_bind_Ok _ _ _ _ _ (on_Ok x consume σ _ _ _ Hx (consume_eq _))).
  assert (<[x := empty]> σ !! y = Some (holding v)) as Hy'
    by by rewrite lookup_insert_ne.
  rewrite (P_bind_Ok _ _ _ _ _
             (on_Ok y has_value _ _ _ _ Hy' (has_value_eq _))).
  rewrite (insert_id _ _ _ Hy').
  rewrite (P_bind_Ok _ _ _ _ _
             (on_Ok y consume _ _ _ _ Hy' (consume_eq _))).
  reflexivity.
Qed.

(** C10. Copying a container that holds [v], by the implicit copy
    constructor ([declare_copy]) or the implicit copy assignment
    ([assign_copy]), gives a second container that holds [v] too, and the
    two are independent: consuming from either one leaves the other
    holding [v], so [v] can be consumed once from each. *)
Theorem copies_are_independent (σ : gmap positive OneTimeValue)
    (x y : positive) (v : T) (old : OneTimeValue) :
  σ !! x = Some (holding v) →
  x ≠ y →
  (∃ σ', (declare_copy y x;; on x consume) σ = Ok (Some v, σ') ∧
         σ' !! x = Some empty ∧ σ' !! y = Some (holding v)) ∧
  (∃ σ', (declare_copy y x;; on y consume) σ = Ok (Some v, σ') ∧
         σ' !! x = Some (holding v) ∧ σ' !! y = Some empty) ∧
  (∃ σ', (declare_copy y x;; read_both x y) σ
           = Ok ((Some v, true, Some v), σ') ∧
         σ' !! x = Some empty ∧ σ' !! y = Some empty) ∧
  (∃ σ', (assign_copy y x;; read_both x y) (<[y := old]> σ)
           = Ok ((Some v, true, Some v), σ') ∧
         σ' !! x = Some empty ∧ σ' !! y = Some empty).
Proof.
  intros Hx Hne.
  pose proof (declare_copy_Ok y x σ v Hx) as Hdecl.
  assert (<[y := holding v]> σ !! x = Some (holding v)) as Hx'
    by by rewrite lookup_insert_ne.
  assert (<[y := holding v]> σ !! y = Some (holding v)) as Hy'
    by by rewrite lookup_insert_eq.
  repeat apply conj.
  - eexists. rewrite (P_bind_Ok _ _ _ _ _ Hdecl).
    split; [exact (on_Ok x consume _ _ _ _ Hx' (consume_eq _))|].
    by simplify_map_eq.
  - eexists. rewrite (P_bind_Ok _ _ _ _ _ Hdecl).
    split; [exact (on_Ok y consume _ _ _ _ Hy' (consume_eq _))|].
    by simplify_map_eq.
  - eexists. rewrite (P_bind_Ok _ _ _ _ _ Hdecl).
    split; [exact (read_both_copies x y _ v Hne Hx' Hy')|].
    by simplify_map_eq.
  - assert (<[y := old]> σ !! x = Some (holding v)) as Hxo
      by by rewrite lookup_insert_ne.
    assert (<[y := old]> σ !! y = Some old) as Hyo
      by by rewrite lookup_insert_eq.
    eexists.
    rewrite (P_bind_Ok _ _ _ _ _ (assign_copy_Ok y x _ v old Hxo Hyo)).
    rewrite insert_insert_eq.
    split; [exact (read_both_copies x y _ v Hne Hx' Hy')|].
    by simplify_map_eq.
Qed.

(** ** How the operations relate *)

Lemma exec_eq (c : op) (this : OneTimeValue) :
  exec c this
  = Ok match c with
       | op_set v | op_set_move v => (out_void, holding v)
       | op_has_value => (out_bool (opt_has_value (value_ this)), this)
       | op_consume => (out_optional (value_ this), empty)
       | op_take_or d => (out_value (default d (value_ this)), empty)
       | op_reset => (out_void, empty)
       end.
Proof.
  destruct c; cbn [exec].
  - by rewrite (bind_Ok _ _ _ _ _ (set_eq _ _)).
  - by rewrite (bind_Ok _ _ _ _ _ (set_move_eq _ _)).
  - by rewrite (bind_Ok _ _ _ _ _ (has_value_eq _)).
  - by rewrite (bind_Ok _ _ _ _ _ (consume_eq _)).
  - by rewrite (bind_Ok _ _ _ _ _ (take_or_eq _ _)).
  - by rewrite (bind_Ok _ _ _ _ _ (reset_eq _)).
Qed.

Lemma exec_all_cons (c : op) (cs : list op) this r mid rs final :
  exec c this = Ok (r, mid) →
  exec_all cs mid = Ok (rs, final) →
  exec_all (c :: cs) this = Ok (r :: rs, final).
Proof.
  intros Hc Hcs. cbn [exec_all].
  by rewrite (bind_Ok _ _ _ _ _ Hc), (bind_Ok _ _ _ _ _ Hcs).
Qed.

(** X1. [take_or d] is [consume] followed by [value_or(d)] on what it
    returned: same returned value, same container afterwards, and [d]
    itself untouched. *)
Theorem take_or_is_consume_value_or (d : T) (this : OneTimeValue) :
  take_or d this = (o ← consume; mret (Call (default d o) d)) this.
Proof.
  rewrite (bind_Ok _ _ _ _ _ (consume_eq this)). apply take_or_eq.
Qed.

(** X2. A read whose result is thrown away does what [reset] does, in
    every state. *)
Theorem discarded_read_is_reset (d : T) (this : OneTimeValue) :
  (consume;; mret ()) this = reset this ∧
  (take_or d;; mret ()) this = reset this.
Proof.
  rewrite (bind_Ok _ _ _ _ _ (consume_eq this)).
  rewrite (bind_Ok _ _ _ _ _ (take_or_eq d this)).
  by rewrite reset_eq.
Qed.

(** X3. Round trip: whatever the container held before, after [set v] (by
    copy or by move) [has_value] is true and the next read, [consume] or
    [take_or] with any fallback, returns [v] and leaves the container
    empty. *)
Theorem set_then_read (how : passing) (v d : T) (this : OneTimeValue) :
  (set_by how v;; in_a_row has_value consume) this
    = Ok ((true, Some v), empty) ∧
  (set_by how v;; in_a_row has_value (take_or d)) this
    = Ok ((true, Call v d), empty).
Proof.
  destruct (set_by_eq how v this) as [residue Hset].
  rewrite !(bind_Ok _ _ _ _ _ Hset). split.
  - exact (in_a_row_Ok _ _ _ _ _ _ _ (has_value_eq _) (consume_eq _)).
  - exact (in_a_row_Ok _ _ _ _ _ _ _ (has_value_eq _) (take_or_eq d _)).
Qed.

(** X4. Constructing from a value is default construction followed by
    [set]: the same container, and for the move overloads the same residue
    left in the caller's object. *)
Theorem ctor_is_default_then_set (how : passing) (v : T) :
  set_by how v ctor_default
  = Ok (Call () (referent (ctor_by how v)), retval (ctor_by how v)).
Proof. by destruct how. Qed.

(** ** Runs of calls *)

Lemma exec_accounting (c : op) (this : OneTimeValue) :
  ∃ r mid,
    exec c this = Ok (r, mid) ∧
    handed_out r + held mid ≤ length (set_values [c]) + held this.
Proof.
  destruct c, this as [[w|]];
    (eexists _, _; split; [exact (exec_eq _ _) | cbn; lia]).
Qed.

(** X5. At most once: over any run of calls from any state, [consume]
    hands back an engaged optional at most as many times as values were put
    in (one per [set], plus one if the container held a value at the
    start); a value still held at the end counts against the same budget. *)
Theorem consume_at_most_once_per_set (cs : list op) (this : OneTimeValue) :
  ∃ rs final,
    exec_all cs this = Ok (rs, final) ∧
    sum_list_with handed_out rs + held final
      ≤ length (set_values cs) + held this.
Proof.
  revert this. induction cs as [|c cs IH]; intros this.
  - exists [], this. split; [reflexivity|]. cbn. lia.
  - destruct (exec_accounting c this) as (r & mid & Hc & Hstep).
    destruct (IH mid) as (rs & final & Hcs & Hrest).
    exists (r :: rs), final. split; [by apply exec_all_cons with mid|].
    unfold set_values in *. cbn [sum_list_with omap list_omap] in *.
    destruct (stored_by c); cbn [length] in *; lia.
Qed.

Lemma set_values_head (c : op) (cs : list op) (v : T) :
  stored_by c = Some v → v ∈ set_values (c :: cs).
Proof.
  intros Hc. apply list_elem_of_omap. exists c. split; [left|exact Hc].
Qed.

Lemma set_values_tail (c : op) (cs : list op) (v : T) :
  v ∈ set_values cs → v ∈ set_values (c :: cs).
Proof.
  intros (c' & Hin & Hc')%list_elem_of_omap.
  apply list_elem_of_omap. exists c'. split; [by right|exact Hc'].
Qed.

Lemma exec_provenance (c : op) (this : OneTimeValue) :
  ∃ r mid,
    exec c this = Ok (r, mid) ∧
    (∀ v, r = out_optional (Some v) → value_ this = Some v) ∧
    (∀ v, value_ mid = Some v → stored_by c = Some v ∨ value_ this = Some v).
Proof.
  destruct c;
    (eexists _, _; split; [exact (exec_eq _ _)|]); cbn;
    split; intros v Hv; try discriminate Hv; auto.
  by injection Hv.
Qed.

(** X6. Nothing is invented: over any run of calls from any state, every
    value [consume] hands back, and the value held at the end if any, is a
    value some [set] of the run was given or the value held at the start.
    In particular a moved-from payload never comes out. *)
Theorem consumed_values_were_set (cs : list op) (this : OneTimeValue) :
  ∃ rs final,
    exec_all cs this = Ok (rs, final) ∧
    ∀ v, out_optional (Some v) ∈ rs ∨ value_ final = Some v →
         v ∈ set_values cs ∨ value_ this = Some v.
Proof.
  revert this. induction cs as [|c cs IH]; intros this.
  - exists [], this. split; [reflexivity|].
    intros v [Hin|Hv]; [by apply elem_of_nil in Hin | by right].
  - destruct (exec_provenance c this) as (r & mid & Hc & Hr & Hmid).
    destruct (IH mid) as (rs & final & Hcs & Hrest).
    exists (r :: rs), final. split; [by apply exec_all_cons with mid|].
    intros v Hv.
    assert (r = out_optional (Some v) ∨
            out_optional (Some v) ∈ rs ∨ value_ final = Some v) as Hcases.
    { destruct Hv as [[Heq|Hin]%elem_of_cons|Hfin]; auto. }
    destruct Hcases as [Heq|Hlater]; [right; by apply Hr|].
    destruct (Hrest v Hlater) as [Hset|Hheld].
    + left. by apply set_values_tail.
    + destruct (Hmid v Hheld) as [Hstored|Hthis]; [left|by right].
      by apply set_values_head.
Qed.

(** ** Moving a container *)

Lemma declare_move_Ok (y x : positive) σ (v : T) :
  σ !! x = Some (holding v) →
  declare_move y x σ
  = Ok ((), <[y := holding v]> (<[x := holding (moved_from v)]> σ)).
Proof. intros Hx. unfold declare_move. by rewrite Hx. Qed.

(** X7. The implicit move constructor does not empty its source. After
    [OneTimeValue<T> y = std::move(x)] with [x] holding [v], [y] holds [v]
    and [x] still reports a value: [x.has_value()] is true and
    [x.consume()] returns the moved-from payload, while [y.consume()]
    returns [v]. Moving an empty container gives two empty ones. *)
Theorem moved_from_container_stays_engaged
    (σ : gmap positive OneTimeValue) (x y : positive) (v : T) :
  x ≠ y →
  (σ !! x = Some (holding v) →
   ∃ σ', (declare_move y x;; probe_then_read x y) σ
           = Ok ((true, Some (moved_from v), Some v), σ') ∧
         σ' !! x = Some empty ∧ σ' !! y = Some empty) ∧
  (σ !! x = Some empty →
   ∃ σ', (declare_move y x;; probe_then_read x y) σ
           = Ok ((false, nullopt, nullopt), σ') ∧
         σ' !! x = Some empty ∧ σ' !! y = Some empty).
Proof.
  intros Hne. split; intros Hx.
  - eexists. rewrite (P_bind_Ok _ _ _ _ _ (declare_move_Ok y x σ v Hx)).
    unfold probe_then_read.
    erewrite P_bind_Ok;
      [|apply on_Ok with (this := holding (moved_from v));
        [by simplify_map_eq | apply has_value_eq]].
    erewrite P_bind_Ok;
      [|apply on_Ok with (this := holding (moved_from v));
        [by simplify_map_eq | apply consume_eq]].
    erewrite P_bind_Ok;
      [|apply on_Ok with (this := holding v);
        [by simplify_map_eq | apply consume_eq]].
    split; [reflexivity|]. by simplify_map_eq.
  - eexists. unfold mbind at 1, P_bind at 1, declare_move. rewrite Hx.
    cbn [implicit_move_ctor value_ empty opt_move_construct nullopt].
    unfold probe_then_read.
    erewrite P_bind_Ok;
      [|apply on_Ok with (this := empty);
        [by simplify_map_eq | apply has_value_eq]].
    erewrite P_bind_Ok;
      [|apply on_Ok with (this := empty);
        [by simplify_map_eq | apply consume_eq]].
    erewrite P_bind_Ok;
      [|apply on_Ok with (this := empty);
        [by simplify_map_eq | apply consume_eq]].
    split; [reflexivity|]. by simplify_map_eq.
Qed.

(** X8. Copying an empty container gives an empty container, and copy
    assignment of a container to itself changes nothing, whatever it
    holds. *)
Theorem copy_edge_cases (σ : gmap positive OneTimeValue) (x y : positive)
    (this : OneTimeValue) :
  (σ !! x = Some empty → declare_copy y x σ = Ok ((), <[y := empty]> σ)) ∧
  (σ !! x = Some this → assign_copy x x σ = Ok ((), σ)).
Proof.
  split; intros Hx.
  - unfold declare_copy. by rewrite Hx.
  - unfold assign_copy. rewrite Hx.
    rewrite (on_Ok x _ σ this () this Hx).
    + by rewrite insert_id.
    + by destruct this as [[w|]].
Qed.

End one_time_value.

Arguments Call {T A} retval referent.
Arguments retval {T A} c.
Arguments referent {T A} c.

(** ** Independence from what a move leaves behind *)

(** X9. What [T] leaves in a moved-from object never shows through the
    container: for any two behaviours of [T]'s move, every run of calls
    from every state gives the same outputs and the same final container.
    [consume] and [take_or] clear the slot after moving out of it. *)
Theorem moved_from_never_observed {T : Type} (mf mf' : T → T)
    (cs : list op) (this : OneTimeValue) :
  exec_all mf cs this = exec_all mf' cs this.
Proof.
  revert this. induction cs as [|c cs IH]; intros this; [reflexivity|].
  cbn [exec_all]. unfold mbind at 1 3, M_bind at 1 3.
  rewrite (exec_eq mf c this), (exec_eq mf' c this).
  destruct c; cbn; unfold mbind, M_bind; by rewrite IH.
Qed.

(** ** Instances at [nat] *)

(** Moving out of an [int] leaves it as it was. *)

Example scenario_1 : has_value (empty (T := nat)) = Ok (false, empty).
Proof. reflexivity. Qed.

Example scenario_2 :
  (set 42;; b ← has_value; o ← consume id; b' ← has_value; mret (b, o, b'))
    (empty (T := nat))
  = Ok ((true, Some 42, false), empty).
Proof. reflexivity. Qed.

(** A moved-from [std::string] is left empty by the usual implementations;
    nothing below depends on that choice. *)
Example scenario_3 :
  (set_move (λ _, EmptyString) "a";; set_move (λ _, EmptyString) "b";;
   consume (λ _, EmptyString)) (empty (T := string))
  = Ok (Some "b"%string, empty).
Proof. reflexivity. Qed.

Example scenario_3_caller :
  set_move (λ _, EmptyString) "a"%string empty
  = Ok (Call () EmptyString, holding "a"%string).
Proof. reflexivity. Qed.

Example scenario_4 :
  (r ← take_or (T := nat) id 7; b ← has_value; mret (retval r, b)) empty
  = Ok ((7, false), empty).
Proof. reflexivity. Qed.

Example scenario_5 :
  (set 9;; r ← take_or id 7; o ← consume id; mret (retval r, o))
    (empty (T := nat))
  = Ok ((9, None), empty).
Proof. reflexivity. Qed.

Lemma set_overwrites_witness :
  1 ≠ 2 ∧
  ∀ final,
    (set_by id by_copy 1;; set_by id by_move 2;; consume id) (holding 7)
      ≠ Ok (Some 1, final).
Proof.
  split; [lia|].
  apply (set_overwrites id by_copy by_move 1 2 (holding 7)). lia.
Defined.

Lemma copies_are_independent_witness :
  ({[1%positive := holding 5]} : gmap positive OneTimeValue) !! 1%positive
    = Some (holding 5) ∧
  1%positive ≠ 2%positive ∧
  ∃ σ',
    (declare_copy 2 1;; read_both id 1 2) {[1%positive := holding 5]}
      = Ok ((Some 5, true, Some 5), σ') ∧
    σ' !! 1%positive = Some empty ∧ σ' !! 2%positive = Some empty.
Proof.
  split; [reflexivity|]. split; [lia|].
  apply (copies_are_independent id {[1%positive := holding 5]} 1 2 5 empty);
    [reflexivity | lia].
Defined.

Example moved_from_is_visible_without_reset :
  value_move (λ _, 0) (holding 5) = Ok (Some 5, holding 0).
Proof. reflexivity. Qed.

Lemma moved_from_container_stays_engaged_witness :
  1%positive ≠ 2%positive ∧
  ({[1%positive := holding 5]} : gmap positive OneTimeValue) !! 1%positive
    = Some (holding 5) ∧
  ∃ σ',
    (declare_move (λ _, 0) 2 1;; probe_then_read (λ _, 0) 1 2)
      {[1%positive := holding 5]}
      = Ok ((true, Some 0, Some 5), σ') ∧
    σ' !! 1%positive = Some empty ∧ σ' !! 2%positive = Some empty.
Proof.
  split; [lia|]. split; [reflexivity|].
  apply (moved_from_container_stays_engaged (λ _, 0)
           {[1%positive := holding 5]} 1 2 5); [lia | reflexivity].
Defined.

Lemma copy_edge_cases_witness :
  ({[1%positive := empty]} : gmap positive (OneTimeValue (T := nat)))
    !! 1%positive = Some empty ∧
  declare_copy 2 1 {[1%positive := empty (T := nat)]}
    = Ok ((), <[2%positive := empty]> {[1%positive := empty]}) ∧
  assign_copy 1 1 {[1%positive := empty (T := nat)]}
    = Ok ((), {[1%positive := empty]}).
Proof.
  split; [reflexivity|].
  split;
    [ apply (copy_edge_cases {[1%positive := empty]} 1 2 empty)
    | apply (copy_edge_cases {[1%positive := empty]} 1 2 empty) ];
    reflexivity.
Defined.
